(** * sensor-exporter: the hddtemp parser, the hddtemp collector and the
    lm-sensors poller of [main.go], embedded and verified.

    Go strings are byte sequences, modelled as [string] (a list of 8-bit
    characters); [float64] is Rocq's binary64 [float]; a function that can
    return an error or raise a run-time panic returns a [result]. *)

From Stdlib Require Import PrimFloat Ascii String.
From stdpp Require Import gmap strings list fin_maps.

(** ** Results of fallible Go code *)

(** The run-time panics the modelled code can raise. *)
Inductive panic : Type :=
| SliceBoundsOutOfRange (low high : nat)
| NilPointerDereference.

(** Errors, one constructor for each [fmt.Errorf] call site: lines 181, 184
    and 190 in [parseHddTemp], 165 and 170 in [parseHddTemps] (the latter
    wraps the error of an item), 150 in [readTempsFromConn], 141 in [Init]. *)
Inductive error : Type :=
| WrongFieldCount (s : string)
| UnsupportedUnit (s : string)
| BadNumber (temp : string)
| MalformedEnvelope (s : string)
| InItem (e : error)
| ReadError (cause : string)
| ConnectError (address cause : string).

Inductive result (A : Type) : Type :=
| Ok (a : A)
| Err (e : error)
| Panic (p : panic).
Arguments Ok {A} a.
Arguments Err {A} e.
Arguments Panic {A} p.

(** The text [fmt.Errorf] produces at each call site.  Line 184 passes an
    argument its format string has no verb for, which [fmt] reports at the
    end of the message. *)
Fixpoint message (e : error) : string :=
  match e with
  | WrongFieldCount s =>
      "error parsing item from hddtemp, expected 4 tokens: " +:+ s
  | UnsupportedUnit s =>
      "error parsing item from hddtemp, I only speak Celsius%!(EXTRA string="
        +:+ s +:+ ")"
  | BadNumber temp => "Error parsing temperature as float: " +:+ temp
  | MalformedEnvelope s => "Error parsing output from hddtemp: " +:+ s
  | InItem e => "Error parsing output from hddtemp: " +:+ message e
  | ReadError cause => "Error reading from hddtemp socket: " +:+ cause
  | ConnectError address cause =>
      "error connecting to hddtemp address '" +:+ address +:+ "': " +:+ cause
  end.

(** ** The string operations the parser uses *)

Module strings.

(** [strings.HasPrefix(s, prefix)]. *)
Definition HasPrefix (s prefix : string) : bool := String.prefix prefix s.

(** Puts [c] in front of the first piece of a split. *)
Definition consHead (c : ascii) (pieces : list string) : list string :=
  match pieces with
  | [] => [String c EmptyString]
  | p :: ps => String c p :: ps
  end.

(** Cuts [s] at the leftmost, non-overlapping occurrences of [sep];
    [skip] counts the characters of a separator just matched that are
    still to be passed over. *)
Fixpoint splitFrom (sep : string) (skip : nat) (s : string) : list string :=
  match s with
  | EmptyString => [EmptyString]
  | String c s' =>
      match skip with
      | S k => splitFrom sep k s'
      | O =>
          if String.prefix sep s
          then EmptyString :: splitFrom sep (String.length sep - 1) s'
          else consHead c (splitFrom sep 0 s')
      end
  end.

(** [strings.Split(s, sep)] for a non-empty [sep], as at both call sites
    (the separators are the literals of lines 167 and 179). *)
Definition Split (s sep : string) : list string := splitFrom sep 0 s.

End strings.

(** The slice expression [s[low:high]]: a run-time panic unless
    [low <= high <= len(s)]. *)
Definition slice (s : string) (low high : nat) : result string :=
  if (low <=? high)%nat && (high <=? String.length s)%nat
  then Ok (substring low (high - low) s)
  else Panic (SliceBoundsOutOfRange low high).

(** ** The parser *)

Record HddTemperature : Type := {
  Device : string;
  Id : string;
  TemperatureCelsius : float
}.

Section Parser.

(** [strconv.ParseFloat(temp, 64)]: the parsed value, or [None] when it
    returns an error.  The function belongs to Go's library and is a
    parameter of the development. *)
Variable ParseFloat : string -> option float.

Definition parseHddTemp (s : string) : result HddTemperature :=
  match strings.Split s "|" with
  | [dev; id; temp; unit] =>
      if bool_decide (unit = "C")
      then match ParseFloat temp with
           | Some ftemp =>
               Ok {| Device := dev; Id := id; TemperatureCelsius := ftemp |}
           | None => Err (BadNumber temp)
           end
      else Err (UnsupportedUnit s)
  | _ => Err (WrongFieldCount s)
  end.

(** The loop of lines 167-174: the first item that fails ends the call. *)
Fixpoint parseItems (items : list string) (hddtemps : list HddTemperature)
  : result (list HddTemperature) :=
  match items with
  | [] => Ok hddtemps
  | item :: rest =>
      match parseHddTemp item with
      | Ok hddtemp => parseItems rest (hddtemps ++ [hddtemp])
      | Err err => Err (InItem err)
      | Panic p => Panic p
      end
  end.

(** Past the guard of line 164 the input has at least one character, so
    [len(s)-1] is not negative; the slice of line 167 panics when it is
    below 1. *)
Definition parseHddTemps (s : string) : result (list HddTemperature) :=
  if (String.length s <? 1)%nat
     || negb (bool_decide (String.get 0 s = Some "|"%char))
  then Err (MalformedEnvelope s)
  else match slice s 1 (String.length s - 1) with
       | Ok body => parseItems (strings.Split body "||") []
       | Err e => Err e
       | Panic p => Panic p
       end.

End Parser.

(** ** A reader of plain decimal numerals

    [decimalFloat] stands for [strconv.ParseFloat] in the concrete examples.
    It reads an optional sign and at most 15 digits with an optional decimal
    point, and refuses everything else; on what it accepts the quotient of
    the digits by the power of ten is exact in binary64 up to its single
    rounding, which is the value [strconv.ParseFloat] returns. *)

Fixpoint natFloat (n : nat) : float :=
  match n with
  | O => 0%float
  | S k => (natFloat k + 1)%float
  end.

Definition digitValue (c : ascii) : option float :=
  let n := nat_of_ascii c in
  if (48 <=? n)%nat && (n <=? 57)%nat then Some (natFloat (n - 48)) else None.

Fixpoint pow10 (k : nat) : float :=
  match k with
  | O => 1%float
  | S k' => (pow10 k' * 10)%float
  end.

(** [mant] is the value of the digits read, [ndig] their number and
    [nfrac] the number of those read after the decimal point, if one was
    passed. *)
Fixpoint readDigits (s : string) (mant : float) (ndig : nat)
    (nfrac : option nat) : option float :=
  match s with
  | EmptyString =>
      if (1 <=? ndig)%nat && (ndig <=? 15)%nat
      then Some (mant / pow10 (default 0%nat nfrac))%float
      else None
  | String c s' =>
      if bool_decide (c = "."%char)
      then match nfrac with
           | None => readDigits s' mant ndig (Some 0%nat)
           | Some _ => None
           end
      else match digitValue c with
           | Some d =>
               readDigits s' (mant * 10 + d)%float (S ndig) (S <$> nfrac)
           | None => None
           end
  end.

Definition decimalFloat (s : string) : option float :=
  match s with
  | String "-" s' => PrimFloat.opp <$> readDigits s' 0%float 0 None
  | String "+" s' => readDigits s' 0%float 0 None
  | _ => readDigits s 0%float 0 None
  end.

(** ** The hddtemp collector *)

(** What one [Read] on the connection returns: some bytes, the end of the
    stream, or an error. *)
Inductive readResult : Type :=
| Bytes (p : string)
| EOF
| ReadFailure (cause : string).

(** An established [net.Conn], seen from the collector: the results of the
    [Read] calls to come.  Once the list is exhausted the peer has closed
    the stream and every further [Read] reports its end. *)
Definition Conn : Type := list readResult.

Module io.

(** [io.Copy(&buf, conn)]: appends what is read to the buffer until a
    [Read] reports the end of the stream (no error) or fails (that error).
    Returns the buffer, the connection and the error. *)
Fixpoint Copy (buf : string) (src : Conn) : string * Conn * option string :=
  match src with
  | [] => (buf, [], None)
  | Bytes p :: rest => Copy (buf +:+ p) rest
  | EOF :: rest => (buf, rest, None)
  | ReadFailure cause :: rest => (buf, rest, Some cause)
  end.

End io.

(** [conn] is [None] for the nil interface value a collector has before
    [Init] succeeds. *)
Record HddCollector : Type := {
  address : string;
  conn : option Conn;
  buf : string
}.

Definition NewHddCollector (address : string) : HddCollector :=
  {| address := address; conn := None; buf := EmptyString |}.

(** [dial] is what [net.Dial] answers: a connection or the cause of its
    failure. *)
Definition Init (h : HddCollector) (dial : Conn + string)
  : HddCollector * option error :=
  match dial with
  | inl c => ({| address := address h; conn := Some c; buf := buf h |}, None)
  | inr cause => (h, Some (ConnectError (address h) cause))
  end.

(** [io.Copy] calls [Read] on its source; on the nil interface value that
    call is a nil-pointer dereference. *)
Definition readTempsFromConn (h : HddCollector)
  : result string * HddCollector :=
  match conn h with
  | None => (Panic NilPointerDereference, h)
  | Some c =>
      let '(b, c', err) := io.Copy (buf h) c in
      let h' := {| address := address h; conn := Some c'; buf := b |} in
      match err with
      | Some cause => (Err (ReadError cause), h')
      | None => (Ok b, h')
      end
  end.

Record Desc : Type := {
  fqName : string;
  help : string;
  variableLabels : list string
}.

Definition hddTempDesc : Desc :=
  {| fqName := "sensor_hddsmart_temperature_celsius";
     help := "temperature in celsius";
     variableLabels := ["device"; "id"] |}.

(** A constant gauge metric, as [prometheus.MustNewConstMetric] builds it
    from a descriptor, a value and one label value per variable label. *)
Record Metric : Type := {
  metricDesc : Desc;
  metricValue : float;
  labelValues : list string
}.

(** What a call of [Collect] did: it returned, having printed [logged] and
    sent [sent] on the channel, or it panicked. *)
Inductive collected : Type :=
| Returned (logged : list string) (sent : list Metric)
| Panicked (p : panic).

Section Collector.

Variable ParseFloat : string -> option float.

Definition Collect (h : HddCollector) : collected * HddCollector :=
  match readTempsFromConn h with
  | (Err err, h') =>
      (Returned ["error reading temps from hddtemp daemon: " +:+ message err]
                [], h')
  | (Panic p, h') => (Panicked p, h')
  | (Ok tempsString, h') =>
      match parseHddTemps ParseFloat tempsString with
      | Err err =>
          (Returned
             ["error parsing temps from hddtemp daemon: " +:+ message err]
             [], h')
      | Panic p => (Panicked p, h')
      | Ok hddtemps =>
          (Returned []
             (map (fun ht =>
                     {| metricDesc := hddTempDesc;
                        metricValue := TemperatureCelsius ht;
                        labelValues := [Device ht; Id ht] |}) hddtemps), h')
      end
  end.

(** The states a collector goes through from [h0], one call of [Collect]
    after the other. *)
Inductive reaches (h0 : HddCollector) : HddCollector -> Prop :=
| reaches_start : reaches h0 h0
| reaches_Collect h c h' :
    reaches h0 h -> Collect h = (c, h') -> reaches h0 h'.

End Collector.

(** The bytes a sequence of [Read] results carries. *)
Fixpoint received (rs : list readResult) : string :=
  match rs with
  | [] => EmptyString
  | Bytes p :: rest => p +:+ received rest
  | _ :: rest => received rest
  end.

(** ** The lm-sensors poller *)

(** A feature of a chip as one pass of the loop sees it: its name and what
    [GetLabel()] and [GetValue()] return. *)
Record Feature : Type := {
  Name : string;
  GetLabel : string;
  GetValue : float
}.

(** A detected chip: what [String()] and [AdapterName()] return, and its
    features. *)
Record Chip : Type := {
  ChipString : string;
  AdapterName : string;
  GetFeatures : list Feature
}.

(** A [GaugeVec] with three labels: the value last set for each tuple of
    label values. *)
Abbreviation GaugeVec := (gmap (string * string * string) float).

(** [vec.WithLabelValues(l, chip, adaptor).Set(v)]. *)
Definition Set_ (vec : GaugeVec) (lvs : string * string * string)
    (v : float) : GaugeVec := <[lvs := v]> vec.

(** The four package-level gauge vectors. *)
Record Gauges : Type := {
  fanspeed : GaugeVec;
  voltages : GaugeVec;
  powers : GaugeVec;
  temperature : GaugeVec
}.

(** The body of the loop over the features of a chip (lines 102-110). *)
Definition collectFeature (chipName adaptorName : string) (feature : Feature)
    (g : Gauges) : Gauges :=
  let lvs := (GetLabel feature, chipName, adaptorName) in
  let v := GetValue feature in
  if strings.HasPrefix (Name feature) "fan" then
    {| fanspeed := Set_ (fanspeed g) lvs v; voltages := voltages g;
       powers := powers g; temperature := temperature g |}
  else if strings.HasPrefix (Name feature) "temp" then
    {| fanspeed := fanspeed g; voltages := voltages g;
       powers := powers g; temperature := Set_ (temperature g) lvs v |}
  else if strings.HasPrefix (Name feature) "in" then
    {| fanspeed := fanspeed g; voltages := Set_ (voltages g) lvs v;
       powers := powers g; temperature := temperature g |}
  else if strings.HasPrefix (Name feature) "power" then
    {| fanspeed := fanspeed g; voltages := voltages g;
       powers := Set_ (powers g) lvs v; temperature := temperature g |}
  else g.

(** The loop over the features of one chip (lines 99-111). *)
Definition collectChip (chip : Chip) (g : Gauges) : Gauges :=
  foldl (fun g feature =>
           collectFeature (ChipString chip) (AdapterName chip) feature g)
        g (GetFeatures chip).

(** One pass of the loop of [collectLm] over the detected chips
    (lines 98-113); the function repeats it every second. *)
Definition collectLm (chips : list Chip) (g : Gauges) : Gauges :=
  foldl (fun g chip => collectChip chip g) g chips.

(** ** Envelopes, as the daemon writes them *)

(** No delimiter in [s]. *)
Fixpoint noBar (s : string) : bool :=
  match s with
  | EmptyString => true
  | String c s' => negb (bool_decide (c = "|"%char)) && noBar s'
  end.

(** The item of a record whose temperature is written [text]. *)
Definition item (rt : HddTemperature * string) : string :=
  Device rt.1 +:+ "|" +:+ Id rt.1 +:+ "|" +:+ rt.2 +:+ "|C".

(** [|dev|id|temp|C||dev|id|temp|C|...|]. *)
Definition envelope (rts : list (HddTemperature * string)) : string :=
  "|" +:+ String.concat "||" (map item rts) +:+ "|".

(** Puts [f] in front of the first piece of a split. *)
Definition appHead (f : string) (pieces : list string) : list string :=
  match pieces with
  | [] => [f]
  | p :: ps => (f +:+ p) :: ps
  end.

(** A record and the text of its temperature make a well-formed item: no
    field holds the delimiter, the id and the temperature are not empty,
    and the text reads as the temperature of the record. *)
Definition wellFormed (ParseFloat : string -> option float)
    (rt : HddTemperature * string) : Prop :=
  noBar (Device rt.1) = true /\ noBar (Id rt.1) = true /\ noBar rt.2 = true
  /\ Id rt.1 <> EmptyString /\ rt.2 <> EmptyString
  /\ ParseFloat rt.2 = Some (TemperatureCelsius rt.1).

(** The number of delimiters in [s]. *)
Fixpoint countBar (s : string) : nat :=
  match s with
  | EmptyString => 0
  | String c s' => (if bool_decide (c = "|"%char) then 1 else 0) + countBar s'
  end.

(** No two delimiters side by side in [s]. *)
Fixpoint noDoubleBar (s : string) : bool :=
  match s with
  | EmptyString => true
  | String c s' => negb (String.prefix "||" s) && noDoubleBar s'
  end.

(** The four gauge vectors as the program starts: nothing set. *)
Definition noGauges : Gauges :=
  {| fanspeed := ∅; voltages := ∅; powers := ∅; temperature := ∅ |}.

(** The metric [Collect] sends for a record (lines 215-219). *)
Definition metricOf (ht : HddTemperature) : Metric :=
  {| metricDesc := hddTempDesc;
     metricValue := TemperatureCelsius ht;
     labelValues := [Device ht; Id ht] |}.

(** [T] puts what it writes on top of the gauges it is given: each vector
    it returns is the vector it returns on [noGauges], completed by the
    vector it was given. *)
Definition writesOnTop (T : Gauges -> Gauges) : Prop :=
  forall g,
    fanspeed (T g) = fanspeed (T noGauges) ∪ fanspeed g
    /\ voltages (T g) = voltages (T noGauges) ∪ voltages g
    /\ powers (T g) = powers (T noGauges) ∪ powers g
    /\ temperature (T g) = temperature (T noGauges) ∪ temperature g.

(** Two gauge states hold values for the same tuples. *)
Definition sameTuples (g1 g2 : Gauges) : Prop :=
  dom (fanspeed g1) = dom (fanspeed g2)
  /\ dom (voltages g1) = dom (voltages g2)
  /\ dom (powers g1) = dom (powers g2)
  /\ dom (temperature g1) = dom (temperature g2).

(** Two detections of the same chips and features, whatever the values
    read. *)
Definition sameFeatures (chips1 chips2 : list Chip) : Prop :=
  Forall2 (fun c1 c2 =>
             ChipString c1 = ChipString c2
             /\ AdapterName c1 = AdapterName c2
             /\ Forall2 (fun f1 f2 => Name f1 = Name f2
                                      /\ GetLabel f1 = GetLabel f2)
                         (GetFeatures c1) (GetFeatures c2))
          chips1 chips2.

(** The value [v] at the tuple [lvs] was read from a feature of [chips]
    whose name begins with [prefix]. *)
Definition readFrom (chips : list Chip) (prefix : string)
    (lvs : string * string * string) (v : float) : Prop :=
  exists chip feature,
    chip ∈ chips /\ feature ∈ GetFeatures chip
    /\ strings.HasPrefix (Name feature) prefix = true
    /\ lvs = (GetLabel feature, ChipString chip, AdapterName chip)
    /\ v = GetValue feature.

(** ** Strings *)

Section StringFacts.

Implicit Types s t u : string.

Lemma append_cons c s t : String c s +:+ t = String c (s +:+ t).
Proof. reflexivity. Qed.

Lemma append_empty_l s : EmptyString +:+ s = s.
Proof. reflexivity. Qed.

Lemma append_empty_r s : s +:+ EmptyString = s.
Proof. induction s as [|c s IH]; [reflexivity|]. by rewrite append_cons, IH. Qed.

Lemma append_assoc s t u : (s +:+ t) +:+ u = s +:+ (t +:+ u).
Proof. induction s as [|c s IH]; [reflexivity|]. by rewrite !append_cons, IH. Qed.

Lemma length_append s t :
  String.length (s +:+ t) = (String.length s + String.length t)%nat.
Proof.
  induction s as [|c s IH]; [reflexivity|].
  rewrite append_cons. simpl. by rewrite IH.
Qed.

Lemma substring_append_l s t : substring 0 (String.length s) (s +:+ t) = s.
Proof.
  induction s as [|c s IH]; [by destruct t|].
  rewrite append_cons. simpl. by rewrite IH.
Qed.

Lemma prefix_append s t : String.prefix s (s +:+ t) = true.
Proof.
  induction s as [|c s IH]; [by destruct t|].
  rewrite append_cons. simpl. by destruct (ascii_dec c c).
Qed.

End StringFacts.

(** ** [strings.Split] on items and envelopes *)

Module SplitFacts.
Import strings.

Lemma appHead_app f1 f2 pieces :
  appHead f1 (appHead f2 pieces) = appHead (f1 +:+ f2) pieces.
Proof. destruct pieces; simpl; by rewrite ?append_assoc. Qed.

Lemma consHead_appHead c pieces :
  consHead c pieces = appHead (String c EmptyString) pieces.
Proof. by destruct pieces. Qed.

Lemma splitFrom_nonempty sep k s : splitFrom sep k s <> [].
Proof.
  revert k. induction s as [|c s IH]; intros k; [done|].
  cbn [splitFrom]. destruct k; [|apply IH].
  destruct (String.prefix sep (String c s)); [done|].
  specialize (IH 0%nat). by destruct (splitFrom sep 0 s).
Qed.

Lemma splitFrom_match sep c s :
  String.prefix sep (String c s) = true ->
  splitFrom sep 0 (String c s)
  = EmptyString :: splitFrom sep (String.length sep - 1) s.
Proof. intros H. cbn [splitFrom]. by rewrite H. Qed.

Lemma splitFrom_no_match sep c s :
  String.prefix sep (String c s) = false ->
  splitFrom sep 0 (String c s) = consHead c (splitFrom sep 0 s).
Proof. intros H. cbn [splitFrom]. by rewrite H. Qed.

Lemma prefix_other_char sep' c s :
  c <> "|"%char -> String.prefix (String "|" sep') (String c s) = false.
Proof.
  intros Hc. cbn [String.prefix].
  destruct (ascii_dec "|" c) as [E|]; [by destruct Hc|done].
Qed.

(** A field without delimiter goes whole into the piece that follows,
    whichever of the two separators is used. *)
Lemma splitFrom_field sep' f s :
  noBar f = true ->
  splitFrom (String "|" sep') 0 (f +:+ s)
  = appHead f (splitFrom (String "|" sep') 0 s).
Proof.
  intros Hf. induction f as [|c f IH].
  - rewrite append_empty_l.
    pose proof (splitFrom_nonempty (String "|" sep') 0 s).
    by destruct (splitFrom (String "|" sep') 0 s).
  - cbn [noBar] in Hf. apply andb_prop in Hf as [Hc Hf].
    apply negb_true_iff, bool_decide_eq_false in Hc.
    rewrite append_cons, splitFrom_no_match by by apply prefix_other_char.
    by rewrite (IH Hf), consHead_appHead, appHead_app.
Qed.

Lemma Split_bar f s :
  noBar f = true -> Split (f +:+ "|" +:+ s) "|" = f :: Split s "|".
Proof.
  intros Hf. unfold Split. rewrite splitFrom_field by done.
  change ("|" +:+ s) with (String "|" s).
  rewrite splitFrom_match by apply (prefix_append "|" s).
  cbn [appHead]. by rewrite append_empty_r.
Qed.

Lemma Split_last f : noBar f = true -> Split f "|" = [f].
Proof.
  intros Hf. unfold Split.
  rewrite <-(append_empty_r f) at 1. rewrite splitFrom_field by done.
  cbn [splitFrom appHead]. by rewrite append_empty_r.
Qed.

(** The four fields of an item. *)
Lemma Split_item dev id temp unit :
  noBar dev = true -> noBar id = true -> noBar temp = true ->
  noBar unit = true ->
  Split (dev +:+ "|" +:+ id +:+ "|" +:+ temp +:+ "|" +:+ unit) "|"
  = [dev; id; temp; unit].
Proof.
  intros. by rewrite !Split_bar, Split_last.
Qed.

(** A lone delimiter inside a piece: the next character is not one. *)
Lemma splitFrom2_bar c s :
  c <> "|"%char ->
  splitFrom "||" 0 ("|" +:+ String c s)
  = appHead "|" (splitFrom "||" 0 (String c s)).
Proof.
  intros Hc. change ("|" +:+ String c s) with (String "|" (String c s)).
  rewrite splitFrom_no_match, consHead_appHead; [done|].
  cbn [String.prefix]. destruct (ascii_dec "|" "|"); [|done].
  destruct (ascii_dec "|" c) as [E|]; [by destruct Hc|done].
Qed.

Lemma splitFrom2_sep s :
  splitFrom "||" 0 ("||" +:+ s) = EmptyString :: splitFrom "||" 0 s.
Proof.
  change ("||" +:+ s) with (String "|" (String "|" s)).
  by rewrite splitFrom_match by apply (prefix_append "||" s).
Qed.

(** A field that is not empty and holds no delimiter starts with another
    character. *)
Lemma field_head f :
  noBar f = true -> f <> EmptyString ->
  exists c f', f = String c f' /\ c <> "|"%char.
Proof.
  destruct f as [|c f]; [done|]. cbn [noBar]. intros Hf _.
  apply andb_prop in Hf as [Hc _].
  apply negb_true_iff, bool_decide_eq_false in Hc. eauto.
Qed.

(** A delimiter followed by a field that is not empty. *)
Lemma splitFrom2_bar_field f s :
  noBar f = true -> f <> EmptyString ->
  splitFrom "||" 0 ("|" +:+ f +:+ s)
  = appHead ("|" +:+ f) (splitFrom "||" 0 s).
Proof.
  intros Hf Hf0. destruct (field_head f Hf Hf0) as (c & f' & E & Hc).
  rewrite <-appHead_app, <-(splitFrom_field "|" f s) by done.
  rewrite E. by apply (splitFrom2_bar c (f' +:+ s)).
Qed.

(** The item of a well-formed record is one piece of the envelope,
    whatever follows it. *)
Lemma splitFrom2_item PF rt tail :
  wellFormed PF rt ->
  splitFrom "||" 0 (item rt +:+ tail)
  = appHead (item rt) (splitFrom "||" 0 tail).
Proof.
  intros (Hdev & Hid & Htemp & Hid0 & Htemp0 & _).
  assert (forall t, item rt +:+ t
          = Device rt.1 +:+ ("|" +:+ Id rt.1 +:+ ("|" +:+ rt.2
              +:+ ("|" +:+ "C" +:+ t)))) as E.
  { intros t. unfold item. by rewrite !append_assoc. }
  rewrite E, splitFrom_field, !splitFrom2_bar_field by done.
  rewrite !appHead_app. f_equal.
  rewrite <-(append_empty_r (item rt)), E. by rewrite !append_assoc.
Qed.

(** Splitting the body of an envelope gives back its items. *)
Lemma Split_items PF rts :
  rts <> [] -> Forall (wellFormed PF) rts ->
  Split (String.concat "||" (map item rts)) "||" = map item rts.
Proof.
  intros Hne Hwf. unfold Split.
  induction Hwf as [|rt rts Hrt Hrts IH]; [done|]. clear Hne.
  destruct rts as [|rt' rts].
  - cbn [map String.concat]. rewrite <-(append_empty_r (item rt)) at 1.
    rewrite (splitFrom2_item PF) by done.
    cbn [splitFrom appHead]. by rewrite append_empty_r.
  - change (String.concat "||" (map item (rt :: rt' :: rts)))
      with (item rt +:+ "||" +:+ String.concat "||" (map item (rt' :: rts))).
    rewrite (splitFrom2_item PF), splitFrom2_sep, IH by done.
    cbn [appHead map]. by rewrite append_empty_r.
Qed.

End SplitFacts.

(** ** The parser on items and envelopes *)

Section ParserFacts.

Variable ParseFloat : string -> option float.

Lemma parseHddTemp_fields s dev id temp unit :
  strings.Split s "|" = [dev; id; temp; unit] ->
  parseHddTemp ParseFloat s
  = if bool_decide (unit = "C")
    then match ParseFloat temp with
         | Some ftemp =>
             Ok {| Device := dev; Id := id; TemperatureCelsius := ftemp |}
         | None => Err (BadNumber temp)
         end
    else Err (UnsupportedUnit s).
Proof. intros E. unfold parseHddTemp. by rewrite E. Qed.


Lemma parseHddTemp_item rt :
  wellFormed ParseFloat rt -> parseHddTemp ParseFloat (item rt) = Ok rt.1.
Proof.
  intros (Hdev & Hid & Htemp & _ & _ & Hv).
  rewrite (parseHddTemp_fields _ (Device rt.1) (Id rt.1) rt.2 "C").
  - rewrite bool_decide_eq_true_2, Hv by done. by destruct rt as [[] ?].
  - by apply (SplitFacts.Split_item (Device rt.1) (Id rt.1) rt.2 "C").
Qed.

Lemma parseItems_items rts hddtemps :
  Forall (wellFormed ParseFloat) rts ->
  parseItems ParseFloat (map item rts) hddtemps = Ok (hddtemps ++ map fst rts).
Proof.
  intros Hwf. revert hddtemps.
  induction Hwf as [|rt rts Hrt _ IH]; intros hddtemps.
  - cbn. by rewrite app_nil_r.
  - cbn [map parseItems]. rewrite parseHddTemp_item, IH by done.
    by rewrite <-app_assoc.
Qed.

(** The first item that fails decides the error of the call. *)
Lemma parseItems_first_error pre s post hddtemps e :
  Forall (fun i => exists ht, parseHddTemp ParseFloat i = Ok ht) pre ->
  parseHddTemp ParseFloat s = Err e ->
  parseItems ParseFloat (pre ++ s :: post) hddtemps = Err (InItem e).
Proof.
  intros Hpre Hs. revert hddtemps.
  induction Hpre as [|i pre [ht Hi] _ IH]; intros hddtemps.
  - cbn. by rewrite Hs.
  - cbn [app parseItems]. by rewrite Hi, IH.
Qed.

(** Line 167 on an input of at least two characters that starts with the
    delimiter: the last character goes, whatever it is. *)
Lemma parseHddTemps_body body last :
  parseHddTemps ParseFloat ("|" +:+ body +:+ String last EmptyString)
  = parseItems ParseFloat (strings.Split body "||") [].
Proof.
  unfold parseHddTemps, slice.
  change ("|" +:+ body +:+ String last EmptyString)
    with (String "|" (body +:+ String last EmptyString)).
  cbn [String.length String.get]. rewrite length_append. cbn [String.length].
  rewrite bool_decide_eq_true_2 by done.
  replace (S (String.length body + 1) - 1)%nat
    with (S (String.length body)) by lia.
  replace (S (String.length body) - 1)%nat with (String.length body) by lia.
  cbn [Nat.ltb Nat.leb negb orb andb substring].
  rewrite (proj2 (Nat.leb_le _ _)) by lia.
  by rewrite substring_append_l.
Qed.

Lemma parseHddTemps_envelope_items rts :
  rts <> [] -> Forall (wellFormed ParseFloat) rts ->
  parseHddTemps ParseFloat (envelope rts) = Ok (map fst rts).
Proof.
  intros Hne Hwf. unfold envelope.
  rewrite parseHddTemps_body, (SplitFacts.Split_items ParseFloat) by done.
  by rewrite parseItems_items.
Qed.


End ParserFacts.

(** ** The parser: the claims *)

(** C4. The envelope built from N >= 1 well-formed records with unit C in
    every item parses to exactly these N records, in the order of the
    envelope and with their device, id and temperature (the devices need
    not even be distinct); in particular
    [|drive0|id1|45.0|C||drive1|id2|50.5|C|] gives the two records
    {drive0, id1, 45.0} and {drive1, id2, 50.5}. *)
Theorem parseHddTemps_round_trip (ParseFloat : string -> option float) :
  (forall rts : list (HddTemperature * string),
     rts <> [] -> Forall (wellFormed ParseFloat) rts ->
     parseHddTemps ParseFloat (envelope rts) = Ok (map fst rts)
     /\ length (map fst rts) = length rts)
  /\ (ParseFloat "45.0" = Some 45%float ->
      ParseFloat "50.5" = Some 50.5%float ->
      parseHddTemps ParseFloat "|drive0|id1|45.0|C||drive1|id2|50.5|C|"
      = Ok [ {| Device := "drive0"; Id := "id1";
                TemperatureCelsius := 45%float |};
             {| Device := "drive1"; Id := "id2";
                TemperatureCelsius := 50.5%float |} ]).
Proof.
  split.
  - intros rts Hne Hwf. split; [|by rewrite length_map].
    by apply parseHddTemps_envelope_items.
  - intros H1 H2.
    apply (parseHddTemps_envelope_items ParseFloat
      [ ({| Device := "drive0"; Id := "id1";
            TemperatureCelsius := 45%float |}, "45.0");
        ({| Device := "drive1"; Id := "id2";
            TemperatureCelsius := 50.5%float |}, "50.5") ]); [done|].
    repeat constructor; done.
Qed.

Lemma parseHddTemps_round_trip_witness :
  parseHddTemps decimalFloat "|drive0|id1|45.0|C||drive1|id2|50.5|C|"
  = Ok [ {| Device := "drive0"; Id := "id1"; TemperatureCelsius := 45%float |};
         {| Device := "drive1"; Id := "id2";
            TemperatureCelsius := 50.5%float |} ]
  /\ parseHddTemps decimalFloat
       (envelope [ ({| Device := "sda"; Id := "ST3000"; 
                       TemperatureCelsius := 38%float |}, "38") ])
     = Ok [ {| Device := "sda"; Id := "ST3000";
               TemperatureCelsius := 38%float |} ].
Proof.
  destruct (parseHddTemps_round_trip decimalFloat) as [Hall Hexample].
  split.
  - apply Hexample; reflexivity.
  - apply (Hall [ ({| Device := "sda"; Id := "ST3000";
                      TemperatureCelsius := 38%float |}, "38") ]).
    + discriminate.
    + repeat constructor; reflexivity || discriminate.
Defined.

(** C5. An input that does not begin with the delimiter (the empty input
    included) is refused as a malformed envelope; no record is returned. *)
Theorem parseHddTemps_no_leading_delimiter
    (ParseFloat : string -> option float) (s : string) :
  String.get 0 s <> Some "|"%char ->
  parseHddTemps ParseFloat s = Err (MalformedEnvelope s).
Proof.
  intros Hs. unfold parseHddTemps.
  rewrite (bool_decide_eq_false_2 _ Hs). cbn [negb].
  by rewrite orb_true_r.
Qed.

Lemma parseHddTemps_no_leading_delimiter_witness :
  parseHddTemps decimalFloat "drive0|id1|45.0|C|"
  = Err (MalformedEnvelope "drive0|id1|45.0|C|")
  /\ parseHddTemps decimalFloat EmptyString
     = Err (MalformedEnvelope EmptyString).
Proof.
  split.
  - apply (parseHddTemps_no_leading_delimiter decimalFloat
             "drive0|id1|45.0|C|"). discriminate.
  - apply (parseHddTemps_no_leading_delimiter decimalFloat EmptyString).
    discriminate.
Defined.

(** C6. A four-field item whose fourth field is not exactly [C] is refused
    with the unsupported-unit error, whatever its temperature field; the
    call on an envelope whose items before it are accepted returns that
    error and no record.  No other unit is converted. *)
Theorem parseHddTemp_unit_not_celsius
    (ParseFloat : string -> option float) (s dev id temp unit : string) :
  strings.Split s "|" = [dev; id; temp; unit] -> unit <> "C" ->
  parseHddTemp ParseFloat s = Err (UnsupportedUnit s)
  /\ forall (body : string) (last : ascii) (pre post : list string),
       strings.Split body "||" = pre ++ s :: post ->
       Forall (fun i => exists ht, parseHddTemp ParseFloat i = Ok ht) pre ->
       parseHddTemps ParseFloat ("|" +:+ body +:+ String last EmptyString)
       = Err (InItem (UnsupportedUnit s)).
Proof.
  intros Hs Hunit.
  assert (parseHddTemp ParseFloat s = Err (UnsupportedUnit s)) as E.
  { rewrite (parseHddTemp_fields _ _ _ _ _ _ Hs).
    by rewrite bool_decide_eq_false_2. }
  split; [done|]. intros body last pre post Hbody Hpre.
  rewrite parseHddTemps_body, Hbody.
  by apply parseItems_first_error.
Qed.

Lemma parseHddTemp_unit_not_celsius_witness :
  parseHddTemp decimalFloat "drive0|id1|45.0|F"
  = Err (UnsupportedUnit "drive0|id1|45.0|F")
  /\ parseHddTemps decimalFloat "|drive0|id1|45.0|F|"
     = Err (InItem (UnsupportedUnit "drive0|id1|45.0|F")).
Proof.
  destruct (parseHddTemp_unit_not_celsius decimalFloat
              "drive0|id1|45.0|F" "drive0" "id1" "45.0" "F")
    as [Hitem Henvelope]; [reflexivity|discriminate|].
  split; [exact Hitem|].
  apply (Henvelope "drive0|id1|45.0|F" "|"%char [] []);
    [reflexivity|constructor].
Defined.




(** C10, as stated, fails for the id: an empty second field puts two
    delimiters side by side, the envelope is cut there, and the call is
    refused for the number of fields of what is left of the item. *)
Lemma empty_id_is_refused :
  parseHddTemps decimalFloat "|dev||45.0|C|"
  = Err (InItem (WrongFieldCount "dev"))
  /\ ~ (forall dev id : string,
          noBar dev = true -> noBar id = true ->
          dev = EmptyString \/ id = EmptyString ->
          parseHddTemps decimalFloat
            ("|" +:+ dev +:+ "|" +:+ id +:+ "|45.0|C|")
          = Ok [ {| Device := dev; Id := id;
                    TemperatureCelsius := 45%float |} ]).
Proof.
  split; [reflexivity|]. intros H.
  specialize (H "dev" EmptyString eq_refl eq_refl (or_intror eq_refl)).
  discriminate H.
Qed.

(** C10, amended. The device is not constrained: an item whose first field
    is empty, wherever it stands in a well-formed envelope, is accepted and
    its record carries the empty device (the id and the temperature are not
    empty and hold no delimiter); [||id|45.0|C|] is such an envelope. *)
Theorem parseHddTemps_empty_device
    (ParseFloat : string -> option float)
    (pre post : list (HddTemperature * string)) (id temp : string)
    (v : float) :
  Forall (wellFormed ParseFloat) pre -> Forall (wellFormed ParseFloat) post ->
  noBar id = true -> id <> EmptyString ->
  noBar temp = true -> temp <> EmptyString ->
  ParseFloat temp = Some v ->
  let ht := {| Device := EmptyString; Id := id; TemperatureCelsius := v |} in
  parseHddTemps ParseFloat (envelope (pre ++ (ht, temp) :: post))
  = Ok (map fst pre ++ ht :: map fst post).
Proof.
  intros Hpre Hpost Hid Hid0 Htemp Htemp0 Hv ht.
  rewrite parseHddTemps_envelope_items.
  - by rewrite map_app.
  - by destruct pre.
  - apply Forall_app. split; [done|]. by constructor.
Qed.

Lemma parseHddTemps_empty_device_witness :
  parseHddTemps decimalFloat "||id|45.0|C|"
  = Ok [ {| Device := EmptyString; Id := "id";
            TemperatureCelsius := 45%float |} ].
Proof.
  apply (parseHddTemps_empty_device decimalFloat [] [] "id" "45.0" 45%float);
    first [ constructor | reflexivity | discriminate ].
Defined.

(** ** The collector: reading *)

Lemma received_app (rs1 rs2 : list readResult) :
  received (rs1 ++ rs2) = received rs1 +:+ received rs2.
Proof.
  induction rs1 as [|[p| |cause] rs1 IH]; cbn [app received]; try done.
  by rewrite IH, append_assoc.
Qed.

(** [io.Copy] appends to the buffer the bytes of the [Read] results it
    consumes, and nothing else. *)
Lemma Copy_appends (b : string) (c : Conn) b' c' err :
  io.Copy b c = (b', c', err) ->
  exists used, c = used ++ c' /\ b' = b +:+ received used.
Proof.
  revert b. induction c as [|[p| |cause] c IH]; intros b; cbn [io.Copy].
  - intros [= <- <- <-]. exists []. by rewrite append_empty_r.
  - intros H. destruct (IH _ H) as (used & -> & ->).
    exists (Bytes p :: used). by rewrite append_assoc.
  - intros [= <- <- <-]. exists [EOF]. by rewrite append_empty_r.
  - intros [= <- <- <-]. exists [ReadFailure cause].
    by rewrite append_empty_r.
Qed.

(** One call of [readTempsFromConn]: the buffer grows by the bytes read,
    and the string returned is the whole buffer. *)
Lemma readTempsFromConn_appends (h h' : HddCollector) (r : result string) :
  readTempsFromConn h = (r, h') ->
  address h' = address h
  /\ (forall tempsString, r = Ok tempsString -> tempsString = buf h')
  /\ match conn h with
     | None => h' = h /\ r = Panic NilPointerDereference
     | Some c =>
         exists used c', c = used ++ c' /\ conn h' = Some c'
                         /\ buf h' = buf h +:+ received used
     end.
Proof.
  unfold readTempsFromConn. destruct (conn h) as [c|].
  - destruct (io.Copy (buf h) c) as [[b c'] err] eqn:Hcopy.
    destruct (Copy_appends _ _ _ _ _ Hcopy) as (used & -> & ->).
    destruct err; intros [= <- <-]; cbn; (split; [done|]);
      (split; [by intros ? [= <-]|]); by exists used, c'.
  - intros [= <- <-]. by repeat split.
Qed.

Section CollectorFacts.

Variable ParseFloat : string -> option float.

(** [Collect] leaves the collector as [readTempsFromConn] left it. *)
Lemma Collect_state (h h' : HddCollector) (c : collected) :
  Collect ParseFloat h = (c, h') -> exists r, readTempsFromConn h = (r, h').
Proof.
  unfold Collect. destruct (readTempsFromConn h) as [[s|e|p] h1].
  - destruct (parseHddTemps ParseFloat s); intros [= <- <-]; eauto.
  - intros [= <- <-]; eauto.
  - intros [= <- <-]; eauto.
Qed.


(** When it does not panic, a call that meets a read error or a parse
    error prints one line and sends nothing. *)
Lemma Collect_failure_is_quiet (h h' : HddCollector) (r : result string) :
  readTempsFromConn h = (r, h') ->
  match r with
  | Err e =>
      Collect ParseFloat h
      = (Returned ["error reading temps from hddtemp daemon: " +:+ message e]
                  [], h')
  | Ok s =>
      forall e, parseHddTemps ParseFloat s = Err e ->
      Collect ParseFloat h
      = (Returned ["error parsing temps from hddtemp daemon: " +:+ message e]
                  [], h')
  | Panic p => Collect ParseFloat h = (Panicked p, h')
  end.
Proof.
  intros Hread. unfold Collect. rewrite Hread.
  destruct r; [|done..]. by intros e ->.
Qed.

End CollectorFacts.

(** ** The collector: the claims *)

(** C1. The code at the input that breaks the claim: the daemon delivers
    the single byte [|].  The guard of line 164 lets a one-character input
    through and the slice of line 167 panics on it, so [Collect] panics
    where the claim has it print a line and send nothing. *)
Theorem Collect_lone_delimiter (ParseFloat : string -> option float)
    (address : string) :
  let h := (Init (NewHddCollector address) (inl [Bytes "|"; EOF])).1 in
  readTempsFromConn h
  = (Ok "|", {| address := address; conn := Some []; buf := "|" |})
  /\ parseHddTemps ParseFloat "|" = Panic (SliceBoundsOutOfRange 1 0)
  /\ (Collect ParseFloat h).1 = Panicked (SliceBoundsOutOfRange 1 0).
Proof. by repeat split. Qed.

(** C2. The code at the input that breaks the claim: [net.Dial] fails.
    [Init] returns the error and leaves the connection nil, and the first
    scrape after it panics in [Collect] on that nil connection, where the
    claim has it send no disk temperature and return. *)
Theorem Collect_without_connection (ParseFloat : string -> option float)
    (address cause : string) :
  let h := (Init (NewHddCollector address) (inr cause)).1 in
  (Init (NewHddCollector address) (inr cause)).2
  = Some (ConnectError address cause)
  /\ conn h = None
  /\ Collect ParseFloat h = (Panicked NilPointerDereference, h).
Proof. by repeat split. Qed.

(** C3. The buffer is never cleared.  In every state a collector reaches
    from its start, call of [Collect] after call, the buffer is the
    concatenation of all bytes read from the connection since the start
    (none without a connection); the string a call hands to the parser is
    the whole buffer, and it begins with the buffer the call found, that is
    with all bytes of the calls before. *)
Theorem buffer_accumulates (ParseFloat : string -> option float)
    (address : string) (dial : Conn + string) (h : HddCollector) :
  reaches ParseFloat (Init (NewHddCollector address) dial).1 h ->
  (exists consumed : list readResult,
     buf h = received consumed
     /\ match dial with
        | inl c => exists rest, conn h = Some rest /\ c = consumed ++ rest
        | inr _ => conn h = None /\ consumed = []
        end)
  /\ (forall tempsString h',
        readTempsFromConn h = (Ok tempsString, h') ->
        tempsString = buf h' /\ String.prefix (buf h) tempsString = true)
  /\ (forall c h',
        Collect ParseFloat h = (c, h') ->
        String.prefix (buf h) (buf h') = true).
Proof.
  intros Hreach.
  assert (forall r h', readTempsFromConn h = (r, h') ->
            String.prefix (buf h) (buf h') = true) as Hgrow.
  { intros r h' Hread.
    destruct (readTempsFromConn_appends _ _ _ Hread) as (_ & _ & Hc).
    destruct (conn h).
    - destruct Hc as (used & c' & _ & _ & ->). apply prefix_append.
    - destruct Hc as [-> _]. rewrite <-(append_empty_r (buf h)) at 2.
      apply prefix_append. }
  split; [|split].
  - clear Hgrow. induction Hreach as [|h1 c h2 _ IH Hcollect].
    + exists []. split; [by destruct dial|]. destruct dial; cbn; eauto.
    + destruct IH as (consumed & Hbuf & Hdial).
      destruct (Collect_state _ _ _ _ Hcollect) as [r Hread].
      destruct (readTempsFromConn_appends _ _ _ Hread) as (_ & _ & Hc).
      destruct dial as [c0|cause].
      * destruct Hdial as (rest & Hconn & ->). rewrite Hconn in Hc.
        destruct Hc as (used & c' & -> & Hconn' & Hbuf').
        exists (consumed ++ used). split.
        -- by rewrite Hbuf', Hbuf, received_app.
        -- exists c'. by rewrite <-app_assoc.
      * destruct Hdial as [Hconn ->]. rewrite Hconn in Hc.
        destruct Hc as [-> _]. by exists [].
  - intros s h' Hread.
    destruct (readTempsFromConn_appends _ _ _ Hread) as (_ & Hs & _).
    rewrite (Hs s eq_refl). split; [done|]. by apply (Hgrow _ _ Hread).
  - intros c h' Hcollect.
    destruct (Collect_state _ _ _ _ Hcollect) as [r Hread].
    by apply (Hgrow _ _ Hread).
Qed.

Lemma buffer_accumulates_witness :
  let h0 := (Init (NewHddCollector "localhost:7634")
               (inl [Bytes "|sda|ST3000"; Bytes "|38|C|"; EOF;
                     Bytes "|sdb|"; ReadFailure "reset"])).1 in
  let h2 := (Collect decimalFloat (Collect decimalFloat h0).2).2 in
  buf h2 = "|sda|ST3000|38|C||sdb|"
  /\ exists consumed,
       buf h2 = received consumed
       /\ exists rest,
            conn h2 = Some rest
            /\ [Bytes "|sda|ST3000"; Bytes "|38|C|"; EOF;
                Bytes "|sdb|"; ReadFailure "reset"] = consumed ++ rest.
Proof.
  intros h0 h2. split; [reflexivity|].
  apply (buffer_accumulates decimalFloat "localhost:7634"
           (inl [Bytes "|sda|ST3000"; Bytes "|38|C|"; EOF;
                 Bytes "|sdb|"; ReadFailure "reset"]) h2).
  eapply reaches_Collect; [eapply reaches_Collect; [apply reaches_start|]|];
    reflexivity.
Defined.

(** ** The poller: the claims *)

(** C8. Features are classified by the prefix of their name: [temp2_input]
    is written to the temperature gauges, [fan1_input] to the fan gauges,
    [in0_input] to the voltage gauges and [power1_input] to the power
    gauges, each under its label, chip and adaptor and leaving the three
    other vectors as they were; [beep_enable] matches no prefix and changes
    nothing. *)
Theorem collectFeature_classifies (chipName adaptorName label : string)
    (v : float) (g : Gauges) :
  let poll name :=
    collectFeature chipName adaptorName
      {| Name := name; GetLabel := label; GetValue := v |} g in
  let lvs := (label, chipName, adaptorName) in
  poll "temp2_input"
  = {| fanspeed := fanspeed g; voltages := voltages g; powers := powers g;
       temperature := <[lvs := v]> (temperature g) |}
  /\ temperature (poll "temp2_input") !! lvs = Some v
  /\ poll "fan1_input"
     = {| fanspeed := <[lvs := v]> (fanspeed g); voltages := voltages g;
          powers := powers g; temperature := temperature g |}
  /\ fanspeed (poll "fan1_input") !! lvs = Some v
  /\ poll "in0_input"
     = {| fanspeed := fanspeed g; voltages := <[lvs := v]> (voltages g);
          powers := powers g; temperature := temperature g |}
  /\ voltages (poll "in0_input") !! lvs = Some v
  /\ poll "power1_input"
     = {| fanspeed := fanspeed g; voltages := voltages g;
          powers := <[lvs := v]> (powers g); temperature := temperature g |}
  /\ powers (poll "power1_input") !! lvs = Some v
  /\ poll "beep_enable" = g.
Proof.
  intros poll lvs.
  assert (poll "temp2_input"
          = {| fanspeed := fanspeed g; voltages := voltages g;
               powers := powers g;
               temperature := <[lvs := v]> (temperature g) |}) as Etemp
    by reflexivity.
  assert (poll "fan1_input"
          = {| fanspeed := <[lvs := v]> (fanspeed g); voltages := voltages g;
               powers := powers g; temperature := temperature g |}) as Efan
    by reflexivity.
  assert (poll "in0_input"
          = {| fanspeed := fanspeed g; voltages := <[lvs := v]> (voltages g);
               powers := powers g; temperature := temperature g |}) as Ein
    by reflexivity.
  assert (poll "power1_input"
          = {| fanspeed := fanspeed g; voltages := voltages g;
               powers := <[lvs := v]> (powers g);
               temperature := temperature g |}) as Epower
    by reflexivity.
  rewrite Etemp, Efan, Ein, Epower.
  cbn [fanspeed voltages powers temperature].
  repeat split; try apply lookup_insert_eq.
Qed.

(** C9. The gauges keep the last value written for a tuple of label
    values.  Polling a feature twice, under the same name, label, chip and
    adaptor and with two values, leaves the gauges as the second poll alone
    would: the vector the name selects holds the second value at the tuple,
    and every vector holds at every other tuple what it held before. *)
Theorem collectFeature_last_write_wins (chipName adaptorName : string)
    (f1 f2 : Feature) (g : Gauges) :
  Name f1 = Name f2 -> GetLabel f1 = GetLabel f2 ->
  let g2 := collectFeature chipName adaptorName f2
              (collectFeature chipName adaptorName f1 g) in
  let lvs := (GetLabel f2, chipName, adaptorName) in
  let name := Name f2 in
  g2 = collectFeature chipName adaptorName f2 g
  /\ (strings.HasPrefix name "fan" = true ->
      fanspeed g2 !! lvs = Some (GetValue f2))
  /\ (strings.HasPrefix name "fan" = false ->
      strings.HasPrefix name "temp" = true ->
      temperature g2 !! lvs = Some (GetValue f2))
  /\ (strings.HasPrefix name "fan" = false ->
      strings.HasPrefix name "temp" = false ->
      strings.HasPrefix name "in" = true ->
      voltages g2 !! lvs = Some (GetValue f2))
  /\ (strings.HasPrefix name "fan" = false ->
      strings.HasPrefix name "temp" = false ->
      strings.HasPrefix name "in" = false ->
      strings.HasPrefix name "power" = true ->
      powers g2 !! lvs = Some (GetValue f2))
  /\ (forall lvs', lvs' <> lvs ->
        fanspeed g2 !! lvs' = fanspeed g !! lvs'
        /\ temperature g2 !! lvs' = temperature g !! lvs'
        /\ voltages g2 !! lvs' = voltages g !! lvs'
        /\ powers g2 !! lvs' = powers g !! lvs').
Proof.
  intros Hname Hlabel. cbv zeta. unfold collectFeature, Set_.
  rewrite Hname, Hlabel.
  destruct (strings.HasPrefix (Name f2) "fan");
    [|destruct (strings.HasPrefix (Name f2) "temp");
      [|destruct (strings.HasPrefix (Name f2) "in");
        [|destruct (strings.HasPrefix (Name f2) "power")]]];
    cbn [fanspeed voltages powers temperature];
    rewrite ?insert_insert_eq;
    (split; [done|]); do 4 (split; [by intros; try apply lookup_insert_eq|]);
    intros lvs' Hlvs'; repeat split; try done;
    by apply lookup_insert_ne.
Qed.

Lemma collectFeature_last_write_wins_witness :
  let empty := {| fanspeed := ∅; voltages := ∅; powers := ∅;
                  temperature := ∅ |} in
  let g2 :=
    collectFeature "w83627-isa-0290" "ISA adapter"
      {| Name := "fan1_input"; GetLabel := "fan1"; GetValue := 1350%float |}
      (collectFeature "w83627-isa-0290" "ISA adapter"
         {| Name := "fan1_input"; GetLabel := "fan1";
            GetValue := 1200%float |} empty) in
  fanspeed g2 !! ("fan1", "w83627-isa-0290", "ISA adapter")
  = Some 1350%float.
Proof.
  intros empty g2.
  apply (collectFeature_last_write_wins "w83627-isa-0290" "ISA adapter"
           {| Name := "fan1_input"; GetLabel := "fan1";
              GetValue := 1200%float |}
           {| Name := "fan1_input"; GetLabel := "fan1";
              GetValue := 1350%float |} empty eq_refl eq_refl).
  reflexivity.
Defined.

(** * Further properties *)

(** ** [strings.Split]: joining the pieces, and what the pieces hold *)

Module SplitJoin.
Import strings SplitFacts.

Lemma concat_consHead sep c pieces :
  pieces <> [] ->
  String.concat sep (consHead c pieces) = String c (String.concat sep pieces).
Proof. destruct pieces as [|p [|q ps]]; done. Qed.

Lemma concat_cons_nonempty sep p pieces :
  pieces <> [] ->
  String.concat sep (p :: pieces) = p +:+ sep +:+ String.concat sep pieces.
Proof. by destruct pieces. Qed.

Lemma splitFrom_skip sep pre t :
  splitFrom sep (String.length pre) (pre +:+ t) = splitFrom sep 0 t.
Proof. induction pre as [|c pre IH]; [done|]. by rewrite append_cons. Qed.

Lemma prefix_inv sep s :
  String.prefix sep s = true -> exists t, s = sep +:+ t.
Proof.
  revert s. induction sep as [|a sep IH]; intros s; [by exists s|].
  destruct s as [|b s]; [done|]. cbn [String.prefix].
  destruct (ascii_dec a b) as [->|]; [|done].
  intros H. destruct (IH _ H) as [t ->]. by exists t.
Qed.

(** Joining the pieces with the separator gives the string back. *)
Lemma concat_splitFrom_bounded sep (n : nat) :
  sep <> EmptyString ->
  forall s, (String.length s <= n)%nat ->
            String.concat sep (splitFrom sep 0 s) = s.
Proof.
  intros Hsep. induction n as [|n IH]; intros [|c s] Hn; try done.
  { cbn in Hn. lia. }
  cbn [String.length] in Hn.
  destruct (String.prefix sep (String c s)) eqn:Hpre.
  - rewrite splitFrom_match by done.
    destruct (prefix_inv _ _ Hpre) as [t Ht].
    destruct sep as [|a sep]; [done|]. rewrite append_cons in Ht.
    injection Ht as -> ->. cbn [String.length].
    replace (S (String.length sep) - 1)%nat with (String.length sep) by lia.
    rewrite splitFrom_skip, concat_cons_nonempty
      by apply splitFrom_nonempty.
    rewrite IH; [done|]. rewrite length_append in Hn. lia.
  - rewrite splitFrom_no_match, concat_consHead
      by (done || apply splitFrom_nonempty).
    rewrite IH; [done|lia].
Qed.

Lemma concat_Split s sep :
  sep <> EmptyString -> String.concat sep (Split s sep) = s.
Proof. intros. by apply (concat_splitFrom_bounded sep (String.length s)). Qed.

(** The pieces of a split on the delimiter hold no delimiter. *)
Lemma Split_bar_pieces s : Forall (fun p => noBar p = true) (Split s "|").
Proof.
  unfold Split. induction s as [|c s IH]; [by repeat constructor|].
  cbn [splitFrom String.prefix String.length].
  destruct (ascii_dec "|" c) as [<-|Hc].
  - replace (String.prefix EmptyString s) with true by by destruct s.
    by constructor.
  - pose proof (splitFrom_nonempty "|" 0 s) as Hne.
    destruct (splitFrom "|" 0 s) as [|p ps]; [done|].
    inversion_clear IH as [|? ? Hp Hps]. constructor; [|done].
    cbn [noBar]. rewrite Hp, bool_decide_eq_false_2 by done. done.
Qed.

(** The number of pieces is one more than the number of delimiters. *)
Lemma length_Split_bar s : length (Split s "|") = S (countBar s).
Proof.
  unfold Split. induction s as [|c s IH]; [done|].
  cbn [splitFrom String.prefix String.length countBar].
  destruct (ascii_dec "|" c) as [<-|Hc].
  - replace (String.prefix EmptyString s) with true by by destruct s.
    rewrite bool_decide_eq_true_2 by done. cbn. by rewrite IH.
  - rewrite bool_decide_eq_false_2 by done.
    pose proof (splitFrom_nonempty "|" 0 s) as Hne.
    by destruct (splitFrom "|" 0 s).
Qed.

(** The first piece of a split begins as the string does. *)
Lemma splitFrom_head sep c s p ps :
  splitFrom sep 0 (String c s) = p :: ps ->
  p = EmptyString \/ exists p', p = String c p'.
Proof.
  cbn [splitFrom]. destruct (String.prefix sep (String c s)).
  - intros [= <- _]. by left.
  - destruct (splitFrom sep 0 s); intros [= <- _]; right; eauto.
Qed.

(** The pieces of a split on the double delimiter hold none. *)
Lemma splitFrom2_pieces s k :
  Forall (fun p => noDoubleBar p = true) (splitFrom "||" k s).
Proof.
  revert k. induction s as [|c s IH]; intros k; [by repeat constructor|].
  cbn [splitFrom]. destruct k as [|k]; [|apply IH].
  destruct (String.prefix "||" (String c s)) eqn:Hpre; [by constructor|].
  pose proof (IH 0%nat) as IH0.
  destruct (splitFrom "||" 0 s) as [|p ps] eqn:Hsplit.
  { by destruct (splitFrom_nonempty "||" 0 s). }
  inversion_clear IH0 as [|? ? Hp Hps]. constructor; [|done].
  cbn [noDoubleBar]. rewrite Hp, andb_true_r. apply negb_true_iff.
  destruct s as [|c' s].
  - cbn in Hsplit. injection Hsplit as <- <-.
    cbn [String.prefix]. by destruct (ascii_dec "|" c).
  - destruct (splitFrom_head _ _ _ _ _ Hsplit) as [->|[p' ->]].
    + cbn [String.prefix]. by destruct (ascii_dec "|" c).
    + revert Hpre. cbn [String.prefix].
      destruct (ascii_dec "|" c); [|done].
      destruct (ascii_dec "|" c'); [|done]. by destruct s.
Qed.

Lemma noDoubleBar_sep a b : noDoubleBar (a +:+ "||" +:+ b) = false.
Proof.
  induction a as [|c a IH].
  - cbn. by destruct b.
  - rewrite append_cons. cbn [noDoubleBar]. rewrite IH. apply andb_false_r.
Qed.

End SplitJoin.

(** ** The parser, item by item *)

Section ParserMore.

Variable ParseFloat : string -> option float.

Lemma parseItems_Ok items hddtemps hts :
  parseItems ParseFloat items hddtemps = Ok hts
  <-> exists hs, hts = hddtemps ++ hs
                 /\ Forall2 (fun i ht => parseHddTemp ParseFloat i = Ok ht)
                            items hs.
Proof.
  revert hddtemps. induction items as [|i items IH]; intros hddtemps.
  - cbn. split.
    + intros [= <-]. exists []. by rewrite app_nil_r.
    + intros (hs & -> & Hhs). inversion Hhs. by rewrite app_nil_r.
  - cbn [parseItems]. split.
    + destruct (parseHddTemp ParseFloat i) as [ht| |] eqn:Hi; try done.
      intros (hs & -> & Hhs)%IH. exists (ht :: hs).
      split; [by rewrite <-app_assoc|by constructor].
    + intros (hs & -> & Hhs). inversion Hhs as [|? ht ? hs' Hi Hrest]; subst.
      rewrite Hi. apply IH. exists hs'. by rewrite <-app_assoc.
Qed.

Lemma parseItems_Err items hddtemps e :
  parseItems ParseFloat items hddtemps = Err e
  <-> exists pre i post e',
        items = pre ++ i :: post
        /\ Forall (fun i => exists ht, parseHddTemp ParseFloat i = Ok ht) pre
        /\ parseHddTemp ParseFloat i = Err e' /\ e = InItem e'.
Proof.
  split.
  - revert hddtemps. induction items as [|i items IH]; intros hddtemps; [done|].
    cbn [parseItems].
    destruct (parseHddTemp ParseFloat i) as [ht|e'|] eqn:Hi; try done.
    + intros (pre & j & post & e' & -> & Hpre & Hj & ->)%IH.
      exists (i :: pre), j, post, e'. repeat split; try done.
      constructor; eauto.
    + intros [= <-]. exists [], i, items, e'. by repeat split.
  - intros (pre & i & post & e' & -> & Hpre & Hi & ->).
    by apply parseItems_first_error.
Qed.

(** X1. On an input that starts with the delimiter and has a last character
    (whatever it is: line 167 drops it unseen), the call succeeds exactly
    when every item between double delimiters is accepted, with the records
    of the items in their order; and it fails exactly with the wrapped
    error of the first item that is refused.  No partial list is returned. *)
Theorem parseHddTemps_all_or_nothing (body : string) (last : ascii) :
  let s := "|" +:+ body +:+ String last EmptyString in
  (forall hts,
     parseHddTemps ParseFloat s = Ok hts
     <-> Forall2 (fun i ht => parseHddTemp ParseFloat i = Ok ht)
                 (strings.Split body "||") hts)
  /\ (forall e,
        parseHddTemps ParseFloat s = Err e
        <-> exists pre i post e',
              strings.Split body "||" = pre ++ i :: post
              /\ Forall (fun i => exists ht, parseHddTemp ParseFloat i = Ok ht)
                        pre
              /\ parseHddTemp ParseFloat i = Err e' /\ e = InItem e').
Proof.
  cbv zeta. rewrite parseHddTemps_body. split.
  - intros hts. rewrite parseItems_Ok. split.
    + by intros (hs & -> & Hhs).
    + intros Hhs. by exists hts.
  - intros e. apply parseItems_Err.
Qed.

(** X2. An item is refused for its number of fields exactly when it does
    not hold exactly three delimiters; with three, its fields are the four
    stretches between them and the answer depends on the unit and on the
    temperature alone. *)
Theorem parseHddTemp_field_count (s : string) :
  (parseHddTemp ParseFloat s = Err (WrongFieldCount s) <-> countBar s <> 3%nat)
  /\ (countBar s = 3%nat ->
      exists dev id temp unit,
        s = dev +:+ "|" +:+ id +:+ "|" +:+ temp +:+ "|" +:+ unit
        /\ noBar dev = true /\ noBar id = true /\ noBar temp = true
        /\ noBar unit = true
        /\ parseHddTemp ParseFloat s
           = if bool_decide (unit = "C")
             then match ParseFloat temp with
                  | Some ftemp =>
                      Ok {| Device := dev; Id := id;
                            TemperatureCelsius := ftemp |}
                  | None => Err (BadNumber temp)
                  end
             else Err (UnsupportedUnit s)).
Proof.
  pose proof (SplitJoin.length_Split_bar s) as Hlen.
  pose proof (SplitJoin.Split_bar_pieces s) as Hpieces.
  pose proof (SplitJoin.concat_Split s "|" ltac:(done)) as Hjoin.
  unfold parseHddTemp.
  destruct (strings.Split s "|") as [|dev [|id [|temp [|unit [|x l]]]]];
    cbn [length] in Hlen.
  1-4, 6: split; [split; [intros _; lia|done]|intros; lia].
  assert (countBar s = 3%nat) as Hcount by lia. split.
  - split; [|done]. intros H. by repeat case_match.
  - intros _. exists dev, id, temp, unit.
    inversion_clear Hpieces as [|? ? H1 Hp1].
    inversion_clear Hp1 as [|? ? H2 Hp2].
    inversion_clear Hp2 as [|? ? H3 Hp3].
    inversion_clear Hp3 as [|? ? H4 _].
    by repeat split.
Qed.

End ParserMore.

(** ** The inputs the parser accepts *)

Section ParserLanguage.

Variable ParseFloat : string -> option float.

Lemma last_character s :
  s <> EmptyString -> exists body last, s = body +:+ String last EmptyString.
Proof.
  induction s as [|c s IH]; [done|]. intros _. destruct s as [|c' s].
  - by exists EmptyString, c.
  - destruct IH as (body & last & ->); [done|]. by exists (String c body), last.
Qed.

(** An accepted item is the item of a well-formed record. *)
Lemma parseHddTemp_Ok_item i ht :
  parseHddTemp ParseFloat i = Ok ht -> noDoubleBar i = true ->
  exists temp, i = item (ht, temp) /\ wellFormed ParseFloat (ht, temp).
Proof.
  intros Hi Hnd.
  pose proof (SplitJoin.Split_bar_pieces i) as Hpieces.
  pose proof (SplitJoin.concat_Split i "|" ltac:(done)) as E.
  unfold parseHddTemp in Hi.
  destruct (strings.Split i "|") as [|dev [|id [|temp [|unit [|x l]]]]];
    try done.
  case_bool_decide as Hu; [subst unit|done].
  destruct (ParseFloat temp) as [v|] eqn:Hv; [|done].
  injection Hi as <-. symmetry in E.
  inversion_clear Hpieces as [|? ? Hd Hp1].
  inversion_clear Hp1 as [|? ? Hid Hp2].
  inversion_clear Hp2 as [|? ? Ht _].
  exists temp. split; [done|].
  repeat split; try done; cbn [fst snd Id].
  - intros ->.
    assert (i = dev +:+ "||" +:+ temp +:+ "|C") as E' by done.
    by rewrite E', SplitJoin.noDoubleBar_sep in Hnd.
  - intros ->.
    assert (i = (dev +:+ "|" +:+ id) +:+ "||" +:+ "C") as E'
      by by rewrite E, !append_assoc.
    by rewrite E', SplitJoin.noDoubleBar_sep in Hnd.
Qed.

(** An accepted input starts with the delimiter and has a last character
    behind it. *)
Lemma parseHddTemps_Ok_shape s hts :
  parseHddTemps ParseFloat s = Ok hts ->
  exists body last, s = "|" +:+ body +:+ String last EmptyString.
Proof.
  intros Hs. destruct s as [|c [|c' s]].
  - done.
  - unfold parseHddTemps, slice in Hs. cbn in Hs. by case_bool_decide.
  - unfold parseHddTemps in Hs. cbn [String.length String.get Nat.ltb
      Nat.leb orb] in Hs.
    case_bool_decide as Hc; [|done]. injection Hc as ->.
    destruct (last_character (String c' s)) as (body & last & ->); eauto.
Qed.

(** An accepted input gives at least one record. *)
Lemma parseHddTemps_Ok_nonempty s hts :
  parseHddTemps ParseFloat s = Ok hts -> hts <> [].
Proof.
  intros Hs. destruct (parseHddTemps_Ok_shape _ _ Hs) as (body & last & ->).
  rewrite parseHddTemps_body in Hs.
  apply parseItems_Ok in Hs as (hs & E & Hhs). cbn [app] in E. subst hs.
  intros ->. inversion Hhs as [E|].
  by destruct (SplitFacts.splitFrom_nonempty "||" 0 body).
Qed.

(** An input that starts with another character is refused whole. *)
Lemma parseHddTemps_other_first_byte c b :
  c <> "|"%char ->
  parseHddTemps ParseFloat (String c b) = Err (MalformedEnvelope (String c b)).
Proof.
  intros Hc. unfold parseHddTemps. cbn [String.get].
  rewrite bool_decide_eq_false_2 by congruence. by rewrite orb_true_r.
Qed.

Lemma accepted_items items hts :
  Forall2 (fun i ht => parseHddTemp ParseFloat i = Ok ht) items hts ->
  Forall (fun i => noDoubleBar i = true) items ->
  exists rts, Forall (wellFormed ParseFloat) rts
              /\ map fst rts = hts /\ map item rts = items.
Proof.
  induction 1 as [|i ht items hts Hi _ IH]; intros Hnd.
  - by exists [].
  - inversion_clear Hnd as [|? ? Hndi Hrest].
    destruct (IH Hrest) as (rts & Hwf & <- & <-).
    destruct (parseHddTemp_Ok_item _ _ Hi Hndi) as (temp & -> & Hrt).
    exists ((ht, temp) :: rts). repeat split; [by constructor|done..].
Qed.

(** X3. The inputs the call accepts are exactly the envelopes of one or
    more well-formed records, the closing delimiter replaced by any
    character; the records returned are those of the envelope.  In
    particular an accepted input never gives an empty list, and a record
    returned never has an empty id or a delimiter in its device or id. *)
Theorem parseHddTemps_accepts (s : string) (hts : list HddTemperature) :
  parseHddTemps ParseFloat s = Ok hts
  <-> exists (rts : list (HddTemperature * string)) (last : ascii),
        rts <> [] /\ Forall (wellFormed ParseFloat) rts
        /\ map fst rts = hts
        /\ s = "|" +:+ String.concat "||" (map item rts)
                   +:+ String last EmptyString.
Proof.
  split.
  - intros Hs.
    destruct (parseHddTemps_Ok_shape _ _ Hs) as (body & last & ->).
    rewrite parseHddTemps_body in Hs.
    apply parseItems_Ok in Hs as (hs & -> & Hhs).
    destruct (accepted_items _ _ Hhs) as (rts & Hwf & <- & Hitems).
    { apply SplitJoin.splitFrom2_pieces. }
    exists rts, last. repeat split; try done.
    + intros ->. cbn in Hitems.
      by destruct (SplitFacts.splitFrom_nonempty "||" 0 body).
    + by rewrite Hitems, SplitJoin.concat_Split.
  - intros (rts & last & Hne & Hwf & <- & ->).
    rewrite parseHddTemps_body, (SplitFacts.Split_items ParseFloat) by done.
    by rewrite parseItems_items.
Qed.

End ParserLanguage.

Lemma parseHddTemps_accepts_witness :
  exists (rts : list (HddTemperature * string)) (last : ascii),
    rts <> [] /\ Forall (wellFormed decimalFloat) rts
    /\ map fst rts
       = [ {| Device := "sda"; Id := "ST3000";
              TemperatureCelsius := 38%float |} ]
    /\ "|sda|ST3000|38|C|"
       = "|" +:+ String.concat "||" (map item rts)
             +:+ String last EmptyString.
Proof.
  apply (parseHddTemps_accepts decimalFloat "|sda|ST3000|38|C|"). reflexivity.
Defined.


(** ** Envelopes one after the other *)

Lemma concat_app sep (l1 l2 : list string) :
  l1 <> [] -> l2 <> [] ->
  String.concat sep (l1 ++ l2)
  = String.concat sep l1 +:+ sep +:+ String.concat sep l2.
Proof.
  intros H1 H2. induction l1 as [|x l1 IH]; [done|]. clear H1.
  destruct l1 as [|y l1].
  - cbn [app]. by rewrite SplitJoin.concat_cons_nonempty.
  - change ((x :: y :: l1) ++ l2) with (x :: ((y :: l1) ++ l2)).
    rewrite !SplitJoin.concat_cons_nonempty, IH by done.
    by rewrite !append_assoc.
Qed.

Lemma envelope_app (r1 r2 : list (HddTemperature * string)) :
  r1 <> [] -> r2 <> [] -> envelope r1 +:+ envelope r2 = envelope (r1 ++ r2).
Proof.
  intros H1 H2. unfold envelope.
  rewrite map_app, concat_app by by destruct r1, r2.
  by rewrite !append_assoc.
Qed.

(** X4. Two envelopes one after the other are accepted as one: the call
    returns the records of the first followed by those of the second. *)
Theorem parseHddTemps_two_envelopes (ParseFloat : string -> option float)
    (r1 r2 : list (HddTemperature * string)) :
  r1 <> [] -> r2 <> [] ->
  Forall (wellFormed ParseFloat) r1 -> Forall (wellFormed ParseFloat) r2 ->
  parseHddTemps ParseFloat (envelope r1 +:+ envelope r2)
  = Ok (map fst r1 ++ map fst r2).
Proof.
  intros H1 H2 Hwf1 Hwf2.
  rewrite envelope_app, parseHddTemps_envelope_items, ?map_app; try done.
  - by destruct r1.
  - by apply Forall_app.
Qed.

Lemma parseHddTemps_two_envelopes_witness :
  parseHddTemps decimalFloat "|sda|ST3000|38|C||sda|ST3000|39|C|"
  = Ok [ {| Device := "sda"; Id := "ST3000"; TemperatureCelsius := 38%float |};
         {| Device := "sda"; Id := "ST3000";
            TemperatureCelsius := 39%float |} ].
Proof.
  apply (parseHddTemps_two_envelopes decimalFloat
           [ ({| Device := "sda"; Id := "ST3000";
                 TemperatureCelsius := 38%float |}, "38") ]
           [ ({| Device := "sda"; Id := "ST3000";
                 TemperatureCelsius := 39%float |}, "39") ]);
    first [ discriminate | repeat constructor; reflexivity || discriminate ].
Defined.

(** ** The collector, scrape after scrape *)

Section CollectorMore.

Variable ParseFloat : string -> option float.

(** X5. What a call that returns has done: either it printed nothing and
    sent one metric for each record of the buffer it read, at least one,
    each with the descriptor of the disk temperature and the device and id
    as its two label values; or it sent nothing and printed one line. *)
Theorem Collect_returned (h h' : HddCollector) (logged : list string)
    (sent : list Metric) :
  Collect ParseFloat h = (Returned logged sent, h') ->
  (logged = []
   /\ exists hts, hts <> [] /\ parseHddTemps ParseFloat (buf h') = Ok hts
                  /\ sent = map metricOf hts
                  /\ Forall (fun m => metricDesc m = hddTempDesc
                                      /\ length (labelValues m)
                                         = length (variableLabels hddTempDesc))
                            sent)
  \/ (sent = [] /\ exists line, logged = [line]).
Proof.
  unfold Collect.
  destruct (readTempsFromConn h) as [[s|e|p] h1] eqn:Hread; [| |done].
  - destruct (readTempsFromConn_appends _ _ _ Hread) as (_ & Hs & _).
    rewrite (Hs s eq_refl).
    destruct (parseHddTemps ParseFloat (buf h1)) as [hts|e|p] eqn:Hparse;
      [| |done].
    + intros [= <- <- <-]. left. split; [done|]. exists hts.
      repeat split; try done.
      * by apply (parseHddTemps_Ok_nonempty ParseFloat (buf h1)).
      * by apply Forall_map, Forall_true.
    + intros [= <- <- <-]. right. eauto.
  - intros [= <- <- <-]. right. eauto.
Qed.

Lemma Collect_appends (h h' : HddCollector) (c : collected) :
  Collect ParseFloat h = (c, h') ->
  address h' = address h
  /\ match conn h with
     | None => h' = h
     | Some c0 =>
         exists used rest, c0 = used ++ rest /\ conn h' = Some rest
                           /\ buf h' = buf h +:+ received used
     end.
Proof.
  intros Hc. destruct (Collect_state _ _ _ _ Hc) as [r Hread].
  destruct (readTempsFromConn_appends _ _ _ Hread) as (Ha & _ & Hconn).
  split; [done|]. destruct (conn h); [done|]. by destruct Hconn.
Qed.

(** X6. [Collect] only consumes.  From any state and through any number of
    calls the address stays, a collector without connection stays as it is
    (no call connects it), and a connection is never dropped or replaced:
    what is left of it is a suffix of what it was, and the buffer is the
    old buffer followed by the bytes consumed. *)
Theorem Collect_only_consumes (h0 h : HddCollector) :
  reaches ParseFloat h0 h ->
  address h = address h0
  /\ match conn h0 with
     | None => h = h0
     | Some c0 =>
         exists used rest, c0 = used ++ rest /\ conn h = Some rest
                           /\ buf h = buf h0 +:+ received used
     end.
Proof.
  induction 1 as [|h1 c h2 _ [IHa IHc] Hcollect].
  - split; [done|]. destruct (conn h0) as [c0|] eqn:E; [|done].
    exists [], c0. by rewrite append_empty_r.
  - destruct (Collect_appends _ _ _ Hcollect) as [Ha Hc].
    split; [congruence|]. destruct (conn h0) as [c0|] eqn:E0.
    + destruct IHc as (used & rest & -> & Hconn & Hbuf). rewrite Hconn in Hc.
      destruct Hc as (used' & rest' & -> & Hconn' & Hbuf').
      exists (used ++ used'), rest'.
      by rewrite <-app_assoc, Hbuf', Hbuf, received_app, append_assoc.
    + subst h1. by rewrite E0 in Hc.
Qed.

End CollectorMore.

Lemma Collect_returned_witness :
  let h := {| address := "localhost:7634";
              conn := Some [Bytes "|sda|ST3000|38|C|"];
              buf := EmptyString |} in
  ([] : list string) = []
  /\ (exists hts, hts <> []
        /\ parseHddTemps decimalFloat (buf (Collect decimalFloat h).2) = Ok hts
        /\ [ {| metricDesc := hddTempDesc; metricValue := 38%float;
                labelValues := ["sda"; "ST3000"] |} ] = map metricOf hts
        /\ Forall (fun m => metricDesc m = hddTempDesc
                            /\ length (labelValues m)
                               = length (variableLabels hddTempDesc))
                  [ {| metricDesc := hddTempDesc; metricValue := 38%float;
                       labelValues := ["sda"; "ST3000"] |} ])
  \/ ([ {| metricDesc := hddTempDesc; metricValue := 38%float;
           labelValues := ["sda"; "ST3000"] |} ] = []
      /\ exists line, ([] : list string) = [line]).
Proof.
  intros h.
  apply (Collect_returned decimalFloat h (Collect decimalFloat h).2).
  reflexivity.
Defined.

Lemma Collect_only_consumes_witness :
  let h0 := {| address := "localhost:7634";
               conn := Some [Bytes "|sda|"; ReadFailure "timeout";
                             Bytes "ST3000|38|C|"];
               buf := EmptyString |} in
  let h2 := (Collect decimalFloat (Collect decimalFloat h0).2).2 in
  address h2 = "localhost:7634"
  /\ exists used rest,
       [Bytes "|sda|"; ReadFailure "timeout"; Bytes "ST3000|38|C|"]
       = used ++ rest
       /\ conn h2 = Some rest
       /\ buf h2 = EmptyString +:+ received used.
Proof.
  intros h0 h2. apply (Collect_only_consumes decimalFloat h0 h2).
  eapply reaches_Collect; [eapply reaches_Collect; [apply reaches_start|]|];
    reflexivity.
Defined.

Section CollectorScrapes.

Variable ParseFloat : string -> option float.

(** X7. Once the stream has ended, nothing changes any more: every later
    call leaves the collector as it found it and does what the first call
    after the end did.  A buffer that held an envelope is sent again at
    every scrape; a buffer that was refused is refused again. *)
Theorem Collect_after_end_of_stream (h h' : HddCollector) :
  conn h = Some [] -> reaches ParseFloat h h' ->
  h' = h /\ Collect ParseFloat h' = ((Collect ParseFloat h).1, h).
Proof.
  intros Hconn.
  assert (Collect ParseFloat h = ((Collect ParseFloat h).1, h)) as Hfix.
  { destruct (Collect ParseFloat h) as [c h1] eqn:Hc. cbn [fst]. f_equal.
    destruct (Collect_state _ _ _ _ Hc) as [r Hread].
    unfold readTempsFromConn in Hread. rewrite Hconn in Hread.
    cbn in Hread. injection Hread as _ <-.
    destruct h as [a c0 b]. cbn in Hconn. by subst c0. }
  intros Hreach.
  assert (h' = h) as ->; [|done].
  induction Hreach as [|h1 c h2 _ IH Hc]; [done|].
  subst h1. rewrite Hfix in Hc. by injection Hc.
Qed.

(** X8. A first byte that is not the delimiter spoils the collector for
    good: the buffer keeps it in front, so every call from then on that
    returns has sent nothing and printed one line. *)
Theorem Collect_first_byte (h h' h'' : HddCollector) (c : ascii)
    (b : string) (logged : list string) (sent : list Metric) :
  buf h = String c b -> c <> "|"%char ->
  reaches ParseFloat h h' ->
  Collect ParseFloat h' = (Returned logged sent, h'') ->
  sent = [] /\ exists line, logged = [line].
Proof.
  intros Hbuf Hc Hreach Hcollect.
  assert (forall h1, reaches ParseFloat h h1 -> exists b1, buf h1 = String c b1)
    as Hinv.
  { induction 1 as [|h1 c1 h2 _ [b1 IH] Hstep]; [eauto|].
    destruct (Collect_appends ParseFloat _ _ _ Hstep) as [_ Hconn].
    destruct (conn h1).
    - destruct Hconn as (used & rest & _ & _ & ->). rewrite IH. eauto.
    - subst h2. eauto. }
  destruct (Hinv h'' (reaches_Collect _ _ _ _ _ Hreach Hcollect)) as [b2 Hb2].
  unfold Collect in Hcollect.
  destruct (readTempsFromConn h') as [[s|e|p] h1] eqn:Hread; [| |done].
  - destruct (readTempsFromConn_appends _ _ _ Hread) as (_ & Hs & _).
    rewrite (Hs s eq_refl) in Hcollect.
    destruct (parseHddTemps ParseFloat (buf h1)) as [hts|e|p] eqn:Hparse;
      [| |done].
    + injection Hcollect as _ _ ->.
      by rewrite Hb2, parseHddTemps_other_first_byte in Hparse.
    + injection Hcollect as <- <- _. eauto.
  - injection Hcollect as <- <- _. eauto.
Qed.

(** X9. A second envelope on the same connection is read behind the
    first: the call sends the metrics of the records of the first envelope
    again, followed by those of the second. *)
Theorem Collect_second_envelope (h : HddCollector)
    (r1 r2 : list (HddTemperature * string)) (rest : Conn) :
  r1 <> [] -> r2 <> [] ->
  Forall (wellFormed ParseFloat) r1 -> Forall (wellFormed ParseFloat) r2 ->
  buf h = envelope r1 ->
  conn h = Some (Bytes (envelope r2) :: EOF :: rest) ->
  Collect ParseFloat h
  = (Returned [] (map metricOf (map fst r1) ++ map metricOf (map fst r2)),
     {| address := address h; conn := Some rest;
        buf := envelope r1 +:+ envelope r2 |}).
Proof.
  intros H1 H2 Hwf1 Hwf2 Hbuf Hconn.
  unfold Collect, readTempsFromConn. rewrite Hconn, Hbuf.
  cbn [io.Copy].
  rewrite (envelope_app r1 r2) by done.
  rewrite parseHddTemps_envelope_items;
    [by rewrite !map_app|by destruct r1|by apply Forall_app].
Qed.

End CollectorScrapes.

Lemma Collect_after_end_of_stream_witness :
  let h := {| address := "localhost:7634"; conn := Some [];
              buf := "|sda|ST3000|38|C|" |} in
  (Collect decimalFloat h).2 = h
  /\ Collect decimalFloat (Collect decimalFloat h).2
     = ((Collect decimalFloat h).1, h).
Proof.
  intros h.
  apply (Collect_after_end_of_stream decimalFloat h (Collect decimalFloat h).2).
  - reflexivity.
  - eapply reaches_Collect; [apply reaches_start|reflexivity].
Defined.

Lemma Collect_first_byte_witness :
  let h := {| address := "localhost:7634";
              conn := Some [Bytes "|sda|ST3000|38|C|"];
              buf := "x" |} in
  (@nil Metric) = []
  /\ exists line,
       ["error parsing temps from hddtemp daemon: "
        +:+ message (MalformedEnvelope "x|sda|ST3000|38|C|")] = [line].
Proof.
  intros h.
  apply (Collect_first_byte decimalFloat h h (Collect decimalFloat h).2
           "x"%char EmptyString).
  - reflexivity.
  - discriminate.
  - apply reaches_start.
  - reflexivity.
Defined.

Lemma Collect_second_envelope_witness :
  let r1 := [ ({| Device := "sda"; Id := "ST3000";
                  TemperatureCelsius := 38%float |}, "38") ] in
  let r2 := [ ({| Device := "sda"; Id := "ST3000";
                  TemperatureCelsius := 39%float |}, "39") ] in
  let h := {| address := "localhost:7634";
              conn := Some [Bytes (envelope r2); EOF];
              buf := envelope r1 |} in
  Collect decimalFloat h
  = (Returned [] (map metricOf (map fst r1) ++ map metricOf (map fst r2)),
     {| address := "localhost:7634"; conn := Some [];
        buf := envelope r1 +:+ envelope r2 |}).
Proof.
  intros r1 r2 h.
  apply (Collect_second_envelope decimalFloat h r1 r2 []);
    first [ discriminate | reflexivity
          | repeat constructor; reflexivity || discriminate ].
Defined.

(** ** The poller, pass after pass *)

Lemma Gauges_eq (g1 g2 : Gauges) :
  fanspeed g1 = fanspeed g2 -> voltages g1 = voltages g2 ->
  powers g1 = powers g2 -> temperature g1 = temperature g2 -> g1 = g2.
Proof. destruct g1, g2; cbn; congruence. Qed.

(** The four prefixes exclude one another. *)
Lemma prefixes_exclusive (name : string) :
  let has p := strings.HasPrefix name p in
  (has "fan" = true -> has "temp" = false /\ has "in" = false
                       /\ has "power" = false)
  /\ (has "temp" = true -> has "fan" = false /\ has "in" = false
                           /\ has "power" = false)
  /\ (has "in" = true -> has "fan" = false /\ has "temp" = false
                         /\ has "power" = false)
  /\ (has "power" = true -> has "fan" = false /\ has "temp" = false
                            /\ has "in" = false).
Proof.
  unfold strings.HasPrefix. destruct name as [|c name]; [done|].
  cbn [String.prefix].
  destruct (ascii_dec "f" c) as [<-|]; [by repeat split|].
  destruct (ascii_dec "t" c) as [<-|]; [by repeat split|].
  destruct (ascii_dec "i" c) as [<-|]; [by repeat split|].
  destruct (ascii_dec "p" c) as [<-|]; by repeat split.
Qed.

(** X10. Any feature is written to the one vector whose prefix its name
    has, under its label, chip and adaptor, and the three other vectors
    stay as they were: the four prefixes exclude one another, so the order
    of the tests of lines 102-108 does not matter.  A name with none of the
    prefixes changes nothing. *)
Theorem collectFeature_by_prefix (chipName adaptorName : string)
    (feature : Feature) (g : Gauges) :
  let has p := strings.HasPrefix (Name feature) p in
  let lvs := (GetLabel feature, chipName, adaptorName) in
  let v := GetValue feature in
  let g' := collectFeature chipName adaptorName feature g in
  (has "fan" = true ->
   g' = {| fanspeed := <[lvs := v]> (fanspeed g); voltages := voltages g;
           powers := powers g; temperature := temperature g |})
  /\ (has "temp" = true ->
      g' = {| fanspeed := fanspeed g; voltages := voltages g;
              powers := powers g;
              temperature := <[lvs := v]> (temperature g) |})
  /\ (has "in" = true ->
      g' = {| fanspeed := fanspeed g; voltages := <[lvs := v]> (voltages g);
              powers := powers g; temperature := temperature g |})
  /\ (has "power" = true ->
      g' = {| fanspeed := fanspeed g; voltages := voltages g;
              powers := <[lvs := v]> (powers g);
              temperature := temperature g |})
  /\ (has "fan" = false -> has "temp" = false -> has "in" = false ->
      has "power" = false -> g' = g).
Proof.
  cbv zeta. unfold collectFeature, Set_.
  destruct (prefixes_exclusive (Name feature)) as (Hf & Ht & Hi & Hp).
  cbv zeta in Hf, Ht, Hi, Hp.
  repeat split.
  - by intros ->.
  - intros H. destruct (Ht H) as (-> & _). by rewrite H.
  - intros H. destruct (Hi H) as (-> & -> & _). by rewrite H.
  - intros H. destruct (Hp H) as (-> & -> & ->). by rewrite H.
  - by intros -> -> -> ->.
Qed.

Lemma collectFeature_by_prefix_witness :
  collectFeature "coretemp-isa-0000" "ISA adapter"
    {| Name := "temperature_sensor"; GetLabel := "Core 0";
       GetValue := 41%float |} noGauges
  = {| fanspeed := ∅; voltages := ∅; powers := ∅;
       temperature := <[("Core 0", "coretemp-isa-0000", "ISA adapter")
                        := 41%float]> ∅ |}.
Proof.
  apply (collectFeature_by_prefix "coretemp-isa-0000" "ISA adapter"
           {| Name := "temperature_sensor"; GetLabel := "Core 0";
              GetValue := 41%float |} noGauges).
  reflexivity.
Defined.

Lemma writesOnTop_id : writesOnTop (fun g => g).
Proof. intros g. cbn. by rewrite !(left_id_L ∅ (∪)). Qed.

Lemma writesOnTop_compose (T1 T2 : Gauges -> Gauges) :
  writesOnTop T1 -> writesOnTop T2 -> writesOnTop (fun g => T2 (T1 g)).
Proof.
  intros H1 H2 g.
  destruct (H1 g) as (E1f & E1v & E1p & E1t).
  destruct (H2 (T1 g)) as (E2f & E2v & E2p & E2t).
  destruct (H2 (T1 noGauges)) as (E3f & E3v & E3p & E3t).
  rewrite E2f, E2v, E2p, E2t, E3f, E3v, E3p, E3t, E1f, E1v, E1p, E1t.
  by rewrite !(assoc_L (∪)).
Qed.

Lemma writesOnTop_foldl {A} (step : Gauges -> A -> Gauges) (l : list A) :
  (forall x, writesOnTop (fun g => step g x)) ->
  writesOnTop (fun g => foldl step g l).
Proof.
  intros Hstep. induction l as [|x l IH]; [apply writesOnTop_id|].
  apply (writesOnTop_compose (fun g => step g x) (fun g => foldl step g l));
    [apply Hstep|apply IH].
Qed.

Lemma writesOnTop_collectFeature chipName adaptorName feature :
  writesOnTop (collectFeature chipName adaptorName feature).
Proof.
  intros g. unfold collectFeature, Set_.
  repeat case_match; cbn [fanspeed voltages powers temperature noGauges];
    rewrite ?insert_empty, ?(left_id_L ∅ (∪));
    repeat split; try done; apply insert_union_singleton_l.
Qed.

Lemma writesOnTop_collectLm chips : writesOnTop (collectLm chips).
Proof.
  apply (writesOnTop_foldl (fun g chip => collectChip chip g)). intros chip.
  apply (writesOnTop_foldl
           (fun g feature =>
              collectFeature (ChipString chip) (AdapterName chip) feature g)).
  intros feature. apply writesOnTop_collectFeature.
Qed.

(** X11. A pass of the loop puts its readings on top of the gauges it
    finds and removes nothing.  Each vector after the pass is what the pass
    writes (the vector it gives from empty gauges) completed by the vector
    before it; so a tuple the pass does not write keeps its value, however
    old, and a tuple that had a value has one after the pass. *)
Theorem collectLm_keeps (chips : list Chip) (g : Gauges) :
  writesOnTop (collectLm chips)
  /\ (forall lvs,
        (fanspeed (collectLm chips noGauges) !! lvs = None ->
         fanspeed (collectLm chips g) !! lvs = fanspeed g !! lvs)
        /\ (voltages (collectLm chips noGauges) !! lvs = None ->
            voltages (collectLm chips g) !! lvs = voltages g !! lvs)
        /\ (powers (collectLm chips noGauges) !! lvs = None ->
            powers (collectLm chips g) !! lvs = powers g !! lvs)
        /\ (temperature (collectLm chips noGauges) !! lvs = None ->
            temperature (collectLm chips g) !! lvs = temperature g !! lvs))
  /\ (forall lvs,
        (is_Some (fanspeed g !! lvs) ->
         is_Some (fanspeed (collectLm chips g) !! lvs))
        /\ (is_Some (voltages g !! lvs) ->
            is_Some (voltages (collectLm chips g) !! lvs))
        /\ (is_Some (powers g !! lvs) ->
            is_Some (powers (collectLm chips g) !! lvs))
        /\ (is_Some (temperature g !! lvs) ->
            is_Some (temperature (collectLm chips g) !! lvs))).
Proof.
  pose proof (writesOnTop_collectLm chips) as Htop.
  destruct (Htop g) as (-> & -> & -> & ->).
  split; [done|]. split; intros lvs.
  - repeat split; intros H; by rewrite lookup_union_r.
  - repeat split; intros H; apply lookup_union_is_Some; by right.
Qed.

Lemma foldl_invariant {A} (P : Gauges -> Prop) (step : Gauges -> A -> Gauges)
    (l : list A) (g : Gauges) :
  P g -> (forall g x, x ∈ l -> P g -> P (step g x)) -> P (foldl step g l).
Proof.
  revert g. induction l as [|x l IH]; intros g Hg Hstep; [done|].
  cbn [foldl]. apply IH.
  - apply Hstep; [by left|done].
  - intros g' y Hy. apply Hstep. by right.
Qed.

(** X12. The gauges hold nothing but readings.  After a pass, a value in
    the fan vector was there before the pass or is the value of a detected
    feature whose name begins with [fan], at the tuple of its label, its
    chip and its adaptor; likewise for the temperature, voltage and power
    vectors with [temp], [in] and [power]. *)
Theorem collectLm_readings (chips : list Chip) (g : Gauges)
    (lvs : string * string * string) (v : float) :
  (fanspeed (collectLm chips g) !! lvs = Some v ->
   fanspeed g !! lvs = Some v \/ readFrom chips "fan" lvs v)
  /\ (temperature (collectLm chips g) !! lvs = Some v ->
      temperature g !! lvs = Some v \/ readFrom chips "temp" lvs v)
  /\ (voltages (collectLm chips g) !! lvs = Some v ->
      voltages g !! lvs = Some v \/ readFrom chips "in" lvs v)
  /\ (powers (collectLm chips g) !! lvs = Some v ->
      powers g !! lvs = Some v \/ readFrom chips "power" lvs v).
Proof.
  unfold collectLm.
  apply (foldl_invariant
    (fun g' =>
       (fanspeed g' !! lvs = Some v ->
        fanspeed g !! lvs = Some v \/ readFrom chips "fan" lvs v)
       /\ (temperature g' !! lvs = Some v ->
           temperature g !! lvs = Some v \/ readFrom chips "temp" lvs v)
       /\ (voltages g' !! lvs = Some v ->
           voltages g !! lvs = Some v \/ readFrom chips "in" lvs v)
       /\ (powers g' !! lvs = Some v ->
           powers g !! lvs = Some v \/ readFrom chips "power" lvs v)));
    [by repeat split; left|].
  intros g1 chip Hchip Hg1. unfold collectChip.
  apply foldl_invariant; [done|]. clear g1 Hg1.
  intros g1 feature Hfeature (Hf & Ht & Hv & Hp).
  unfold collectFeature, Set_.
  repeat case_match; cbn [fanspeed voltages powers temperature];
    repeat split; try done;
    intros [[<- <-]|[_ Hold]]%lookup_insert_Some; auto;
    right; by exists chip, feature.
Qed.

Lemma collectLm_readings_witness :
  let chips := [ {| ChipString := "w83627-isa-0290";
                    AdapterName := "ISA adapter";
                    GetFeatures := [ {| Name := "fan1_input";
                                        GetLabel := "fan1";
                                        GetValue := 1350%float |} ] |} ] in
  fanspeed noGauges !! ("fan1", "w83627-isa-0290", "ISA adapter")
  = Some 1350%float
  \/ readFrom chips "fan" ("fan1", "w83627-isa-0290", "ISA adapter")
       1350%float.
Proof.
  intros chips.
  apply (collectLm_readings chips noGauges
           ("fan1", "w83627-isa-0290", "ISA adapter") 1350%float).
  reflexivity.
Defined.

Lemma sameTuples_collectFeature chipName adaptorName f1 f2 g1 g2 :
  Name f1 = Name f2 -> GetLabel f1 = GetLabel f2 -> sameTuples g1 g2 ->
  sameTuples (collectFeature chipName adaptorName f1 g1)
             (collectFeature chipName adaptorName f2 g2).
Proof.
  intros Hn Hl (Hf & Hv & Hp & Ht). unfold collectFeature, Set_, sameTuples.
  rewrite Hn, Hl.
  repeat case_match; cbn [fanspeed voltages powers temperature];
    rewrite ?dom_insert_L; repeat split; congruence.
Qed.

Lemma sameTuples_collectLm chips1 chips2 :
  sameFeatures chips1 chips2 ->
  forall g1 g2, sameTuples g1 g2 ->
                sameTuples (collectLm chips1 g1) (collectLm chips2 g2).
Proof.
  unfold collectLm, collectChip.
  induction 1 as [|c1 c2 chips1 chips2 (Hc & Ha & Hfs) _ IH]; intros g1 g2 Hg;
    [done|].
  cbn [foldl]. apply IH. rewrite Hc, Ha. clear IH.
  revert g1 g2 Hg.
  induction Hfs as [|f1 f2 fs1 fs2 [Hn Hl] _ IHf]; intros g1 g2 Hg; [done|].
  cbn [foldl]. apply IHf. by apply sameTuples_collectFeature.
Qed.

Lemma union_absorbs (W1 W2 m : GaugeVec) :
  dom W1 = dom W2 -> W2 ∪ (W1 ∪ m) = W2 ∪ m.
Proof.
  intros Hdom. apply map_eq. intros k. rewrite !lookup_union.
  destruct (W2 !! k) as [v|] eqn:E2; [by rewrite !union_Some_l|].
  apply not_elem_of_dom in E2. rewrite <-Hdom in E2.
  apply not_elem_of_dom in E2. by rewrite E2, !(left_id_L None union).
Qed.

Lemma collectLm_absorbs chips1 chips2 g :
  sameTuples (collectLm chips1 noGauges) (collectLm chips2 noGauges) ->
  collectLm chips2 (collectLm chips1 g) = collectLm chips2 g.
Proof.
  intros (Hf & Hv & Hp & Ht).
  destruct (writesOnTop_collectLm chips2 (collectLm chips1 g))
    as (E2f & E2v & E2p & E2t).
  destruct (writesOnTop_collectLm chips1 g) as (E1f & E1v & E1p & E1t).
  destruct (writesOnTop_collectLm chips2 g) as (E3f & E3v & E3p & E3t).
  apply Gauges_eq.
  - rewrite E2f, E1f, E3f. by apply union_absorbs.
  - rewrite E2v, E1v, E3v. by apply union_absorbs.
  - rewrite E2p, E1p, E3p. by apply union_absorbs.
  - rewrite E2t, E1t, E3t. by apply union_absorbs.
Qed.

(** X13. A pass leaves no trace of the pass before it over the same chips
    and features: the gauges after both are those after the second alone,
    whatever values the first had read.  In particular a pass repeated on
    unchanged readings changes nothing. *)
Theorem collectLm_overwrites (chips1 chips2 : list Chip) (g : Gauges) :
  sameFeatures chips1 chips2 ->
  collectLm chips2 (collectLm chips1 g) = collectLm chips2 g
  /\ collectLm chips2 (collectLm chips2 g) = collectLm chips2 g.
Proof.
  intros Hsame. split.
  - apply collectLm_absorbs. by apply sameTuples_collectLm.
  - by apply collectLm_absorbs.
Qed.

Lemma collectLm_overwrites_witness :
  let chip v := {| ChipString := "w83627-isa-0290";
                   AdapterName := "ISA adapter";
                   GetFeatures := [ {| Name := "fan1_input";
                                       GetLabel := "fan1";
                                       GetValue := v |};
                                    {| Name := "beep_enable";
                                       GetLabel := "beep_enable";
                                       GetValue := 1%float |} ] |} in
  collectLm [chip 1350%float] (collectLm [chip 1200%float] noGauges)
  = collectLm [chip 1350%float] noGauges
  /\ collectLm [chip 1350%float] (collectLm [chip 1350%float] noGauges)
     = collectLm [chip 1350%float] noGauges.
Proof.
  intros chip.
  apply (collectLm_overwrites [chip 1200%float] [chip 1350%float] noGauges).
  repeat constructor.
Defined.

Lemma parseHddTemp_field_count_witness :
  exists dev id temp unit,
    "sda|ST3000|38|C" = dev +:+ "|" +:+ id +:+ "|" +:+ temp +:+ "|" +:+ unit
    /\ noBar dev = true /\ noBar id = true /\ noBar temp = true
    /\ noBar unit = true
    /\ parseHddTemp decimalFloat "sda|ST3000|38|C"
       = if bool_decide (unit = "C")
         then match decimalFloat temp with
              | Some ftemp =>
                  Ok {| Device := dev; Id := id; TemperatureCelsius := ftemp |}
              | None => Err (BadNumber temp)
              end
         else Err (UnsupportedUnit "sda|ST3000|38|C").
Proof.
  apply (parseHddTemp_field_count decimalFloat "sda|ST3000|38|C").
  reflexivity.
Defined.
